(** * PRR-Engine: the B4 fixed-point solver embedded in [src/App.tsx]

    The page [src/App.tsx] carries, as the string [pythonCode], a Python
    program that resolves the Liar sentence [L <=> ¬L] over the four-valued
    logic B4, and, as the component [MathFormula], the mapping [C] from truth
    values to confidence intervals.  This file embeds both and checks the
    properties stated in the specification against them. *)

From Stdlib Require Import QArith.
From stdpp Require Import gmap strings list fin_maps sorting.

(** ** B4 truth values (source lines 4-8)

    The program names four string constants [T], [F], [B], [N] and never
    builds any other value; they are the constructors of an enumeration whose
    printed form is the source string. *)

Inductive TruthValue : Set := T | F | B | N.

Definition to_str (v : TruthValue) : string :=
  match v with
  | T => "True"
  | F => "False"
  | B => "Both"
  | N => "Neither"
  end.

Definition truth_values : list TruthValue := [T; F; B; N].

#[global] Instance TruthValue_eq_dec : EqDecision TruthValue.
Proof. solve_decision. Defined.

Definition TruthValue_code (v : TruthValue) : nat :=
  match v with T => 0 | F => 1 | B => 2 | N => 3 end.

Definition TruthValue_of_code (n : nat) : TruthValue :=
  match n with 0 => T | 1 => F | 2 => B | _ => N end.

#[global] Instance TruthValue_countable : Countable TruthValue.
Proof.
  apply (inj_countable' TruthValue_code TruthValue_of_code).
  intros []; reflexivity.
Defined.

#[global] Instance TruthValue_inhabited : Inhabited TruthValue := populate N.

(** ** Operator tables (source lines 11-24)

    Both tables are Python dictionaries; [d[k]] raises [KeyError] on a missing
    key, which the lookup [d !! k = None] stands for. *)

Definition NEGATION_TABLE : gmap TruthValue TruthValue :=
  list_to_map [
    (T, F);
    (F, T);
    (B, B);
    (N, N)
  ].

Definition CONJUNCTION_TABLE : gmap (TruthValue * TruthValue) TruthValue :=
  list_to_map [
    ((T, T), T); ((T, F), F); ((T, B), B); ((T, N), N);
    ((F, T), F); ((F, F), F); ((F, B), F); ((F, N), F);
    ((B, T), B); ((B, F), F); ((B, B), B); ((B, N), F);
    ((N, T), N); ((N, F), F); ((N, B), F); ((N, N), N)
  ].

(** ** Join of the information lattice (source lines 26-32) *)

Definition join_info_lattice (v1 v2 : TruthValue) : TruthValue :=
  if decide (v1 = v2) then v1
  else if decide (v1 = N) then v2
  else if decide (v2 = N) then v1
  else B.

(** ** The Liar solver (source lines 34-68)

    [solve_loop n liar_value] is the [for] loop with [n] iterations left and
    the current content of the variable [liar_value]; [None] is a raised
    [KeyError].  The first [Some] is the [return] of line 66, the fuel-zero
    case is the [return] of line 68. *)

Fixpoint solve_loop (iterations : nat) (liar_value : TruthValue)
  : option TruthValue :=
  match iterations with
  | O => Some liar_value
  | S rest =>
      let previous_value := liar_value in
      computed_value ← NEGATION_TABLE !! previous_value;
      let liar_value := join_info_lattice previous_value computed_value in
      if decide (liar_value = previous_value) then Some liar_value
      else solve_loop rest liar_value
  end.

Definition max_iterations : nat := 5.

Definition solve_liar_fixed_point : option TruthValue :=
  solve_loop max_iterations N.

(** The same loop, also reporting how it was left: [Stabilized r v] is the
    [return] of line 66 taken in round [r] (the loop variable [i] plus one),
    [Exhausted v] is the [return] of line 68 after the last iteration. *)

Inductive Exit : Set :=
  | Stabilized (round : nat) (v : TruthValue)
  | Exhausted (v : TruthValue).

Definition exit_value (e : Exit) : TruthValue :=
  match e with
  | Stabilized _ v => v
  | Exhausted v => v
  end.

Fixpoint solve_rounds (iterations i : nat) (liar_value : TruthValue)
  : option Exit :=
  match iterations with
  | O => Some (Exhausted liar_value)
  | S rest =>
      let previous_value := liar_value in
      computed_value ← NEGATION_TABLE !! previous_value;
      let liar_value := join_info_lattice previous_value computed_value in
      if decide (liar_value = previous_value) then Some (Stabilized (S i) liar_value)
      else solve_rounds rest (S i) liar_value
  end.

(** The successive contents of the variable [liar_value]: its initial value,
    then every value assigned to it at line 55. *)

Fixpoint liar_values (iterations : nat) (liar_value : TruthValue)
  : list TruthValue :=
  liar_value ::
  match iterations with
  | O => []
  | S rest =>
      let previous_value := liar_value in
      match NEGATION_TABLE !! previous_value with
      | None => []
      | Some computed_value =>
          let liar_value := join_info_lattice previous_value computed_value in
          if decide (liar_value = previous_value) then [liar_value]
          else liar_values rest liar_value
      end
  end.

(** ** Confidence projection (source lines 116-121, component [MathFormula]) *)

Record Interval : Set := mkInterval { i_min : Q; i_max : Q }.

Definition C (v : TruthValue) : Interval :=
  match v with
  | T => mkInterval 1.0 1.0
  | F => mkInterval 0.0 0.0
  | B => mkInterval 0.0 1.0
  | N => mkInterval 0.0 0.0
  end.

(** ** The information order of the specification (§3)

    Neither is bottom, Both is top, True and False are incomparable. *)

Definition info_leb (v1 v2 : TruthValue) : bool :=
  match v1, v2 with
  | N, _ => true
  | _, B => true
  | T, T => true
  | F, F => true
  | _, _ => false
  end.

#[global] Instance info_le : SqSubsetEq TruthValue :=
  fun v1 v2 => info_leb v1 v2 = true.

#[global] Instance info_le_dec : RelDecision info_le.
Proof. intros v1 v2. unfold info_le. apply _. Defined.

(** The operators as the specification words them (§4.1). *)

Definition negate_spec (v : TruthValue) : TruthValue :=
  match v with
  | T => F
  | F => T
  | B => B
  | N => N
  end.

Definition conjunction_spec (v1 v2 : TruthValue) : TruthValue :=
  match v1, v2 with
  | T, T => T | T, F => F | T, B => B | T, N => N
  | F, _ => F
  | B, T => B | B, F => F | B, B => B | B, N => F
  | N, T => N | N, F => F | N, B => F | N, N => N
  end.

(** Two results of table lookups, both present and ordered. *)

Definition lookup_le (o1 o2 : option TruthValue) : Prop :=
  ∃ r1 r2, o1 = Some r1 ∧ o2 = Some r2 ∧ r1 ⊑ r2.

(** One pass through lines 48-55: the value assigned to [liar_value] when
    the previous value is [v]. *)

Definition liar_update (v : TruthValue) : option TruthValue :=
  computed_value ← NEGATION_TABLE !! v;
  Some (join_info_lattice v computed_value).

(** ** The N-sentence solver of the specification

    The source holds only the one-sentence instance above.  The definitions
    of this part follow the specification's wording for an arbitrary number
    of named sentences; they reuse the program's join, and its tables through
    [negate_spec] and [conjunction_spec], which equal them. *)

(** Modelled from the spec: the formula of a Sentence (§3), an expression
    tree over Negation, Conjunction, Disjunction, Literal and Reference; the
    source has no formula type. *)
Inductive Formula : Set :=
  | Literal (v : TruthValue)
  | Reference (name : string)
  | Negation (f : Formula)
  | Conjunction (f1 f2 : Formula)
  | Disjunction (f1 f2 : Formula).

(** Modelled from the spec: [disjunction], derived via De Morgan (§4.1); the
    source has no disjunction table. *)
Definition disjunction_spec (v1 v2 : TruthValue) : TruthValue :=
  negate_spec (conjunction_spec (negate_spec v1) (negate_spec v2)).

(** Modelled from the spec: the value of sentence [name] in an Assignment
    (§3), a mapping from name to TruthValue absent from the source.  Every
    sentence of the graph has a value; [N] stands in for a name outside it. *)
Definition value_of (a : gmap string TruthValue) (name : string) : TruthValue :=
  default N (a !! name).

(** Modelled from the spec: [evaluate(formula, previous_round_assignment)]
    of §4.4, absent from the source. *)
Fixpoint evaluate (f : Formula) (a : gmap string TruthValue) : TruthValue :=
  match f with
  | Literal v => v
  | Reference name => value_of a name
  | Negation f => negate_spec (evaluate f a)
  | Conjunction f1 f2 => conjunction_spec (evaluate f1 a) (evaluate f2 a)
  | Disjunction f1 f2 => disjunction_spec (evaluate f1 a) (evaluate f2 a)
  end.

(** Modelled from the spec: invariant (a) of §3, that every reference
    resolves to a sentence of the same graph; graph construction (§4.3),
    absent from the source, checks it. *)
Fixpoint resolves (g : gmap string Formula) (f : Formula) : bool :=
  match f with
  | Literal _ => true
  | Reference name => bool_decide (is_Some (g !! name))
  | Negation f => resolves g f
  | Conjunction f1 f2 | Disjunction f1 f2 => resolves g f1 && resolves g f2
  end.

(** Modelled from the spec: the validation of a whole SentenceGraph (§4.3),
    absent from the source. *)
Definition well_formed (g : gmap string Formula) : bool :=
  bool_decide (map_Forall (fun _ f => resolves g f = true) g).

(** Modelled from the spec: the Initializing state of §4.4, every sentence
    at Neither; the source has it for its single variable only. *)
Definition initial (g : gmap string Formula) : gmap string TruthValue :=
  (fun _ => N) <$> g.

(** Modelled from the spec: one synchronous round of §4.4, absent from the
    source for more than one sentence.  Every sentence is recomputed from the
    frozen assignment [a] and joined with its previous value. *)
Definition solve_round (g : gmap string Formula) (a : gmap string TruthValue)
  : gmap string TruthValue :=
  map_imap (fun name f =>
    let candidate := evaluate f a in
    Some (join_info_lattice (value_of a name) candidate)) g.

(** Modelled from the spec: the chain of Assignments of §3, the assignment
    after [k] rounds; absent from the source. *)
Fixpoint rounds (g : gmap string Formula) (k : nat) : gmap string TruthValue :=
  match k with
  | O => initial g
  | S k => solve_round g (rounds g k)
  end.

(** Modelled from the spec: the terminal states of the solver's state
    machine (§4.4), absent from the source: [Stable k a] after a round [k]
    that changed nothing, [NonConvergent] when the safety bound is used up. *)
Inductive Outcome : Type :=
  | Stable (round : nat) (a : gmap string TruthValue)
  | NonConvergent.

(** Modelled from the spec: the Iterating state of §4.4, absent from the
    source: repeated rounds until one changes nothing or the bound is
    exceeded. *)
Fixpoint iterate (g : gmap string Formula) (fuel round : nat)
    (a : gmap string TruthValue) : Outcome :=
  match fuel with
  | O => NonConvergent
  | S fuel =>
      let a' := solve_round g a in
      if decide (a' = a) then Stable (S round) a'
      else iterate g fuel (S round) a'
  end.

(** Modelled from the spec: [solve(graph, max_iterations)] of §6, absent
    from the source; an empty graph returns the empty assignment without
    entering Iterating (§4.4). *)
Definition solve (g : gmap string Formula) (max_iterations : nat) : Outcome :=
  if decide (g = ∅) then Stable 0 ∅
  else iterate g max_iterations 0 (initial g).

(** Modelled from the spec: the scenario graph [{L: Negation(L)}] of §8,
    which the source hardcodes as its single variable. *)
Definition liar_graph : gmap string Formula :=
  {[ "L" := Negation (Reference "L") ]}.

(** Height of a truth value in the information order (§3: Neither, then
    True or False, then Both), and the total height of an assignment over the
    sentences of a graph. *)
Definition rank (v : TruthValue) : nat :=
  match v with
  | N => 0
  | T | F => 1
  | B => 2
  end.

Definition names (g : gmap string Formula) : list string :=
  (map_to_list g).*1.

Definition height (g : gmap string Formula) (a : gmap string TruthValue) : nat :=
  sum_list_with (fun name => rank (value_of a name)) (names g).

(** An assignment gives a value to exactly the sentences of the graph. *)
Definition covers (g : gmap string Formula) (a : gmap string TruthValue) : Prop :=
  ∀ name, is_Some (a !! name) ↔ is_Some (g !! name).

(** * Properties of the embedded program *)

(** Case analysis on every truth value in sight, then evaluation. *)
Ltac by_table :=
  intros;
  repeat match goal with v : TruthValue |- _ => destruct v end;
  try reflexivity; try discriminate; auto.

Lemma to_str_inj v1 v2 : to_str v1 = to_str v2 → v1 = v2.
Proof. by_table. Qed.

Lemma truth_values_complete v : v ∈ truth_values.
Proof. destruct v; unfold truth_values; set_solver. Qed.

(** *** Tables: no [KeyError] on a truth value *)

Lemma NEGATION_TABLE_lookup v : NEGATION_TABLE !! v = Some (negate_spec v).
Proof. by_table. Qed.

Lemma CONJUNCTION_TABLE_lookup v1 v2 :
  CONJUNCTION_TABLE !! (v1, v2) = Some (conjunction_spec v1 v2).
Proof. by_table. Qed.

(** *** The information order is a partial order with bottom and top *)

#[global] Instance info_le_po : PartialOrder info_le.
Proof.
  split; [split|].
  - intros v. unfold info_le. by_table.
  - intros v1 v2 v3. unfold info_le. by_table.
  - intros v1 v2. unfold info_le. by_table.
Qed.

Lemma info_le_bottom v : N ⊑ v.
Proof. reflexivity. Qed.

Lemma info_le_top v : v ⊑ B.
Proof. unfold sqsubseteq, info_le. by_table. Qed.

Lemma T_F_incomparable : ¬ T ⊑ F ∧ ¬ F ⊑ T.
Proof. split; discriminate. Qed.

(** [join_info_lattice] is what its docstring says: the least upper bound. *)

Lemma join_upper_l v1 v2 : v1 ⊑ join_info_lattice v1 v2.
Proof. unfold sqsubseteq, info_le. by_table. Qed.

Lemma join_upper_r v1 v2 : v2 ⊑ join_info_lattice v1 v2.
Proof. unfold sqsubseteq, info_le. by_table. Qed.

Lemma join_least v1 v2 u : v1 ⊑ u → v2 ⊑ u → join_info_lattice v1 v2 ⊑ u.
Proof. unfold sqsubseteq, info_le. by_table. Qed.

(** *** The loop and its instrumented forms agree *)

Lemma solve_rounds_value iterations i v :
  exit_value <$> solve_rounds iterations i v = solve_loop iterations v.
Proof.
  revert i v. induction iterations as [|rest IH]; intros i v; [reflexivity|].
  simpl. rewrite NEGATION_TABLE_lookup. simpl.
  case_decide; [reflexivity|apply IH].
Qed.

Lemma liar_values_last iterations v :
  last (liar_values iterations v) = solve_loop iterations v.
Proof.
  revert v. induction iterations as [|rest IH]; intros v; [reflexivity|].
  cbn [liar_values solve_loop]. rewrite NEGATION_TABLE_lookup. simpl.
  case_decide; [reflexivity|].
  rewrite <- IH. destruct rest; reflexivity.
Qed.

(** *** The N-sentence solver stabilizes

    Every round is inflationary (a value is joined with its candidate), a
    round that changes the assignment raises its total height, and the height
    of an assignment over [n] sentences is at most [2 * n]. *)

Lemma rank_join_le v c : rank v ≤ rank (join_info_lattice v c).
Proof. destruct v, c; simpl; lia. Qed.

Lemma rank_join_lt v c :
  join_info_lattice v c ≠ v → rank v < rank (join_info_lattice v c).
Proof. destruct v, c; simpl; intros Hne; try lia; by destruct Hne. Qed.

Lemma rank_le_2 v : rank v ≤ 2.
Proof. destruct v; simpl; lia. Qed.

Section sums.
Context {A : Type} (f h : A → nat).

Lemma sum_list_with_le l :
  (∀ x, x ∈ l → f x ≤ h x) → sum_list_with f l ≤ sum_list_with h l.
Proof.
  induction l as [|x l IH]; intros Hle; simpl; [lia|].
  pose proof (Hle x ltac:(left)).
  assert (sum_list_with f l ≤ sum_list_with h l)
    by (apply IH; intros y Hy; apply Hle; by right).
  lia.
Qed.

Lemma sum_list_with_lt l x :
  (∀ y, y ∈ l → f y ≤ h y) → x ∈ l → f x < h x →
  sum_list_with f l < sum_list_with h l.
Proof.
  intros Hle Hin Hlt. revert Hle.
  induction Hin as [x l|x y l Hin IH]; intros Hle; simpl.
  - assert (sum_list_with f l ≤ sum_list_with h l)
      by (apply sum_list_with_le; intros z Hz; apply Hle; by right).
    lia.
  - pose proof (Hle y ltac:(left)).
    assert (sum_list_with f l < sum_list_with h l)
      by (apply IH; [done|]; intros z Hz; apply Hle; by right).
    lia.
Qed.

Lemma sum_list_with_bound c l :
  (∀ x, x ∈ l → f x ≤ c) → sum_list_with f l ≤ c * length l.
Proof.
  induction l as [|x l IH]; intros Hle; simpl; [lia|].
  pose proof (Hle x ltac:(left)).
  assert (sum_list_with f l ≤ c * length l)
    by (apply IH; intros y Hy; apply Hle; by right).
  lia.
Qed.
End sums.

Section solver.
Context (g : gmap string Formula).

Lemma elem_of_names name : name ∈ names g ↔ is_Some (g !! name).
Proof.
  unfold names. rewrite list_elem_of_fmap. split.
  - intros [[n f] [-> Hin]]. apply elem_of_map_to_list in Hin. eauto.
  - intros [f Hf]. exists (name, f). split; [done|].
    by apply elem_of_map_to_list.
Qed.

Lemma length_names : length (names g) = size g.
Proof. unfold names. by rewrite length_fmap, length_map_to_list. Qed.

Lemma solve_round_lookup a name :
  solve_round g a !! name
  = (λ f, join_info_lattice (value_of a name) (evaluate f a)) <$> g !! name.
Proof.
  unfold solve_round. rewrite map_lookup_imap.
  by destruct (g !! name).
Qed.

Lemma initial_covers : covers g (initial g).
Proof.
  intros name. unfold initial. rewrite lookup_fmap.
  by rewrite fmap_is_Some.
Qed.

Lemma solve_round_covers a : covers g (solve_round g a).
Proof.
  intros name. rewrite solve_round_lookup. by rewrite fmap_is_Some.
Qed.

Lemma rounds_covers k : covers g (rounds g k).
Proof. destruct k; [apply initial_covers|apply solve_round_covers]. Qed.

Lemma value_of_solve_round a name f :
  g !! name = Some f →
  value_of (solve_round g a) name
  = join_info_lattice (value_of a name) (evaluate f a).
Proof.
  intros Hf. unfold value_of at 1. by rewrite solve_round_lookup, Hf.
Qed.

Lemma height_bound a : height g a ≤ 2 * size g.
Proof.
  unfold height. rewrite <- length_names.
  apply sum_list_with_bound. intros name _. apply rank_le_2.
Qed.

Lemma height_round_le a : height g a ≤ height g (solve_round g a).
Proof.
  unfold height. apply sum_list_with_le. intros name Hin.
  apply elem_of_names in Hin as [f Hf].
  rewrite (value_of_solve_round _ _ _ Hf). apply rank_join_le.
Qed.

(** A round that changes the assignment changes some sentence. *)
Lemma changed_sentence a :
  covers g a → solve_round g a ≠ a →
  ∃ name f, g !! name = Some f
            ∧ join_info_lattice (value_of a name) (evaluate f a)
              ≠ value_of a name.
Proof.
  intros Hcov Hne.
  destruct (decide (Forall (λ name, solve_round g a !! name = a !! name)
                      (names g))) as [Hall|Hnot].
  - destruct Hne. apply map_eq. intros name.
    destruct (g !! name) as [f|] eqn:Hf.
    + rewrite Forall_forall in Hall. apply Hall.
      apply elem_of_names. by rewrite Hf.
    + rewrite solve_round_lookup, Hf. simpl. symmetry.
      apply eq_None_not_Some. rewrite (Hcov name), Hf.
      apply is_Some_None.
  - apply not_Forall_Exists in Hnot; [|apply _].
    apply Exists_exists in Hnot as (name & Hin & Hdiff).
    apply elem_of_names in Hin as [f Hf].
    exists name, f. split; [done|].
    intros Heq. apply Hdiff.
    rewrite solve_round_lookup, Hf. simpl.
    destruct (proj2 (Hcov name) (ex_intro _ f Hf)) as [v Hv].
    unfold value_of in Heq |- *. rewrite Hv in Heq |- *. simpl in *.
    by rewrite Heq.
Qed.

Lemma height_round_lt a :
  covers g a → solve_round g a ≠ a →
  height g a < height g (solve_round g a).
Proof.
  intros Hcov Hne.
  destruct (changed_sentence a Hcov Hne) as (name & f & Hf & Hch).
  unfold height. apply sum_list_with_lt with (x := name).
  - intros y Hin. apply elem_of_names in Hin as [f' Hf'].
    rewrite (value_of_solve_round _ _ _ Hf'). apply rank_join_le.
  - apply elem_of_names. by rewrite Hf.
  - rewrite (value_of_solve_round _ _ _ Hf). by apply rank_join_lt.
Qed.

(** After [k] rounds, either some earlier round changed nothing or the
    height has reached [k]. *)
Lemma stable_or_high k :
  (∃ j, j < k ∧ solve_round g (rounds g j) = rounds g j)
  ∨ k ≤ height g (rounds g k).
Proof.
  induction k as [|k [(j & Hj & Hst)|Hhigh]].
  - right. lia.
  - left. exists j. split; [lia|done].
  - destruct (decide (solve_round g (rounds g k) = rounds g k)) as [Hst|Hne].
    + left. exists k. split; [lia|done].
    + right. simpl.
      pose proof (height_round_lt _ (rounds_covers k) Hne). lia.
Qed.

Lemma stable_round_exists :
  ∃ j, j < 2 * size g + 1 ∧ solve_round g (rounds g j) = rounds g j.
Proof.
  destruct (stable_or_high (2 * size g + 1)) as [Hst|Hhigh]; [done|].
  pose proof (height_bound (rounds g (2 * size g + 1))). lia.
Qed.

Lemma iterate_stable fuel i j :
  i ≤ j < i + fuel → solve_round g (rounds g j) = rounds g j →
  ∃ k a, iterate g fuel i (rounds g i) = Stable k a
         ∧ k ≤ S j ∧ solve_round g a = a.
Proof.
  revert i. induction fuel as [|fuel IH]; intros i Hj Hst; [lia|].
  simpl. case_decide as Heq.
  - exists (S i), (solve_round g (rounds g i)).
    split; [done|]. split; [lia|]. by rewrite !Heq.
  - apply (IH (S i)); [|done].
    destruct (decide (j = i)) as [->|]; [done|lia].
Qed.

Lemma solve_stable extra :
  ∃ k a, solve g (2 * size g + 1 + extra) = Stable k a
         ∧ k ≤ 2 * size g + 1 ∧ solve_round g a = a.
Proof.
  unfold solve. case_decide as Hempty.
  - exists 0, ∅. split; [done|]. split; [lia|].
    apply map_eq. intros name.
    by rewrite solve_round_lookup, Hempty, !lookup_empty.
  - destruct stable_round_exists as (j & Hj & Hst).
    destruct (iterate_stable (2 * size g + 1 + extra) 0 j) as (k & a & Hit & Hk & Ha);
      [lia|done|].
    exists k, a. split; [exact Hit|]. split; [lia|done].
Qed.



End solver.

(** *** The Liar graph is the embedded program's sentence *)

Lemma liar_graph_well_formed : well_formed liar_graph = true.
Proof. reflexivity. Qed.

Lemma liar_graph_round v :
  Some (solve_round liar_graph {[ "L" := v ]})
  = (λ v', {[ "L" := v' ]}) <$> liar_update v.
Proof. destruct v; reflexivity. Qed.

Lemma solve_rounds_step rest i v :
  solve_rounds (S rest) i v
  = let v' := join_info_lattice v (negate_spec v) in
    if decide (v' = v) then Some (Stabilized (S i) v')
    else solve_rounds rest (S i) v'.
Proof. simpl. by rewrite NEGATION_TABLE_lookup. Qed.

Lemma solve_rounds_total iterations i v :
  ∃ e, solve_rounds iterations i v = Some e
       ∧ solve_loop iterations v = Some (exit_value e).
Proof.
  rewrite <- (solve_rounds_value _ i).
  destruct (solve_rounds iterations i v) as [e|] eqn:He; [by exists e|].
  exfalso. revert i v He.
  induction iterations as [|rest IH]; intros i v; [done|].
  rewrite solve_rounds_step. cbv zeta. case_decide; [done|apply IH].
Qed.

Lemma solve_rounds_two extra v :
  ∃ k r, solve_rounds (2 + extra) 0 v = Some (Stabilized k r)
         ∧ k ≤ 2 ∧ liar_update r = Some r.
Proof.
  change (2 + extra) with (S (S extra)).
  destruct v; rewrite !solve_rounds_step; cbn;
    eexists _, _; (split; [reflexivity|]); split; (lia || reflexivity).
Qed.

(** * The claims *)

(** C1 (the code departs from it). The specification and the program's own
    comments (lines 68 and 73) expect the Liar solver to return Both.  Run
    from the all-Neither start, the loop computes [NEGATION_TABLE[N] = N],
    joins it with [N], finds the value unchanged in round 1 and returns
    Neither: it terminates within the three rounds, but not with Both. *)
Theorem solve_liar_fixed_point_returns_Neither :
  solve_rounds max_iterations 0 N = Some (Stabilized 1 N)
  ∧ solve_liar_fixed_point = Some N
  ∧ solve_liar_fixed_point ≠ Some B
  ∧ to_str N = "Neither".
Proof. repeat split. discriminate. Qed.

(** C2. [NEGATION_TABLE] and [CONJUNCTION_TABLE] hold exactly the entries of
    the specification's tables: four and sixteen keys, negation swapping True
    and False and fixing Both and Neither, conjunction agreeing with the
    sixteen stated pairs. *)
Theorem tables_reproduce_spec :
  (∀ v, NEGATION_TABLE !! v = Some (negate_spec v))
  ∧ (∀ v1 v2, CONJUNCTION_TABLE !! (v1, v2) = Some (conjunction_spec v1 v2))
  ∧ size NEGATION_TABLE = 4
  ∧ size CONJUNCTION_TABLE = 16
  ∧ NEGATION_TABLE !! T = Some F
  ∧ NEGATION_TABLE !! F = Some T
  ∧ NEGATION_TABLE !! B = Some B
  ∧ NEGATION_TABLE !! N = Some N
  ∧ CONJUNCTION_TABLE !! (T, B) = Some B
  ∧ CONJUNCTION_TABLE !! (B, N) = Some F
  ∧ CONJUNCTION_TABLE !! (N, B) = Some F
  ∧ CONJUNCTION_TABLE !! (N, N) = Some N.
Proof.
  split; [exact NEGATION_TABLE_lookup|].
  split; [exact CONJUNCTION_TABLE_lookup|].
  repeat split.
Qed.

(** C3. Negation and conjunction are monotone for the information order:
    whenever [v1 ⊑ v2], for every [x] the table entries exist and satisfy
    [NEGATION_TABLE[v1] ⊑ NEGATION_TABLE[v2]] and
    [CONJUNCTION_TABLE[(v1,x)] ⊑ CONJUNCTION_TABLE[(v2,x)]]. *)
Theorem operators_monotone (v1 v2 x : TruthValue) :
  v1 ⊑ v2 →
  lookup_le (NEGATION_TABLE !! v1) (NEGATION_TABLE !! v2)
  ∧ lookup_le (CONJUNCTION_TABLE !! (v1, x)) (CONJUNCTION_TABLE !! (v2, x)).
Proof.
  intros Hle. unfold lookup_le.
  rewrite !NEGATION_TABLE_lookup, !CONJUNCTION_TABLE_lookup.
  split; eexists _, _; (split; [reflexivity|split; [reflexivity|]]);
    revert Hle; unfold sqsubseteq, info_le; by_table.
Qed.

Lemma operators_monotone_witness :
  N ⊑ T
  ∧ lookup_le (NEGATION_TABLE !! N) (NEGATION_TABLE !! T)
  ∧ lookup_le (CONJUNCTION_TABLE !! (N, B)) (CONJUNCTION_TABLE !! (T, B)).
Proof. split; [reflexivity|apply (operators_monotone N T B); reflexivity]. Defined.

(** C4. [join_info_lattice] is commutative, idempotent and associative,
    Neither is its identity and Both is absorbing. *)
Theorem join_laws (v1 v2 v3 : TruthValue) :
  join_info_lattice v1 v2 = join_info_lattice v2 v1
  ∧ join_info_lattice v1 v1 = v1
  ∧ join_info_lattice N v1 = v1
  ∧ join_info_lattice v1 N = v1
  ∧ join_info_lattice B v1 = B
  ∧ join_info_lattice v1 B = B
  ∧ join_info_lattice v1 (join_info_lattice v2 v3)
    = join_info_lattice (join_info_lattice v1 v2) v3.
Proof. destruct v1, v2, v3; repeat split. Qed.

(** C5. The confidence projection maps True to [1.0, 1.0], False to
    [0.0, 0.0], Both to [0.0, 1.0] and Neither to [0.0, 0.0]; Neither and
    False get the same interval, and every interval lies within [0, 1]. *)
Theorem confidence_projection :
  C T = mkInterval 1.0 1.0
  ∧ C F = mkInterval 0.0 0.0
  ∧ C B = mkInterval 0.0 1.0
  ∧ C N = mkInterval 0.0 0.0
  ∧ C N = C F
  ∧ (∀ v, (0 <= i_min (C v))%Q ∧ (i_min (C v) <= i_max (C v))%Q
          ∧ (i_max (C v) <= 1)%Q).
Proof.
  do 5 (split; [reflexivity|]).
  intros []; repeat split; discriminate.
Qed.

(** C8. The value of [liar_value] only moves upward: for every previous and
    computed value, [previous ⊑ join_info_lattice previous computed]; hence
    the successive values of the variable, for any number of iterations and
    any start, form an increasing chain that ends in the returned value. *)
Theorem values_only_move_up :
  (∀ previous_value computed_value,
     previous_value ⊑ join_info_lattice previous_value computed_value)
  ∧ (∀ iterations v, Sorted (⊑) (liar_values iterations v))
  ∧ (∀ iterations v, last (liar_values iterations v) = solve_loop iterations v).
Proof.
  split; [exact join_upper_l|]. split; [|exact liar_values_last].
  intros iterations. induction iterations as [|rest IH]; intros v.
  - repeat constructor.
  - cbn [liar_values]. rewrite NEGATION_TABLE_lookup. cbv zeta.
    case_decide as Heq.
    + rewrite Heq. repeat constructor. reflexivity.
    + constructor; [apply IH|].
      destruct rest; constructor; apply join_upper_l.
Qed.

(** C9. Conjunction is commutative: the table has an entry for every
    ordered pair, and the entries of [(v1,v2)] and [(v2,v1)] coincide. *)
Theorem conjunction_commutative (v1 v2 : TruthValue) :
  CONJUNCTION_TABLE !! (v1, v2) = CONJUNCTION_TABLE !! (v2, v1)
  ∧ is_Some (CONJUNCTION_TABLE !! (v1, v2)).
Proof.
  rewrite !CONJUNCTION_TABLE_lookup. split; [|eauto].
  by_table.
Qed.

(** C6. In the N-sentence solver of the specification, started from the
    all-Neither assignment with a bound of at least [2N + 1] rounds, some
    round [k ≤ 2N + 1] changes nothing and the solver stops there with a
    stable assignment.  The embedded program is the case [N = 1]: its loop is
    left through the stabilization check in a round [k ≤ 3], within its 5
    iterations. *)
Theorem stabilizes_within_2N_plus_1 :
  (∀ (g : gmap string Formula) (extra : nat),
     ∃ k a, solve g (2 * size g + 1 + extra) = Stable k a
            ∧ k ≤ 2 * size g + 1
            ∧ solve_round g a = a)
  ∧ (∃ k v, solve_rounds max_iterations 0 N = Some (Stabilized k v)
            ∧ solve liar_graph max_iterations = Stable k {[ "L" := v ]}
            ∧ k ≤ 2 * size liar_graph + 1
            ∧ 2 * size liar_graph + 1 = 3
            ∧ 3 ≤ max_iterations).
Proof.
  split; [exact solve_stable|].
  exists 1, N. repeat split; unfold max_iterations; lia.
Qed.


(** C10. [solve_liar_fixed_point] takes no input and has one result, a
    value [v] (no exception), and that value is a fixed point of the Liar
    update: [join_info_lattice v NEGATION_TABLE[v] = v]. *)
Theorem solve_liar_fixed_point_is_fixed_point :
  ∃ v, solve_liar_fixed_point = Some v
       ∧ (∀ v', solve_liar_fixed_point = Some v' → v' = v)
       ∧ NEGATION_TABLE !! v = Some v
       ∧ join_info_lattice v v = v
       ∧ liar_update v = Some v.
Proof.
  exists N. repeat split. intros v' Hv'.
  by injection Hv'.
Qed.

(** * Further properties of the program *)

(** X1. Negation is an involution: looking a value up in [NEGATION_TABLE]
    twice gives the value back. *)
Theorem negation_involutive (v : TruthValue) :
  (NEGATION_TABLE !! v ≫= λ v', NEGATION_TABLE !! v') = Some v.
Proof. by_table. Qed.

(** X2. The values negation leaves unchanged are exactly Both and Neither
    (the comment of line 65 names Both only). *)
Theorem negation_fixed_points (v : TruthValue) :
  NEGATION_TABLE !! v = Some v ↔ v = B ∨ v = N.
Proof.
  rewrite NEGATION_TABLE_lookup. split.
  - destruct v; intros Heq; try discriminate; auto.
  - intros [-> | ->]; reflexivity.
Qed.

(** X3. Conjunction is associative: combining three values through
    [CONJUNCTION_TABLE] gives the same entry whichever pair is looked up
    first, and no lookup misses. *)
Theorem conjunction_associative (v1 v2 v3 : TruthValue) :
  ∃ r, (v12 ← CONJUNCTION_TABLE !! (v1, v2); CONJUNCTION_TABLE !! (v12, v3))
       = Some r
       ∧ (v23 ← CONJUNCTION_TABLE !! (v2, v3); CONJUNCTION_TABLE !! (v1, v23))
         = Some r.
Proof.
  rewrite !CONJUNCTION_TABLE_lookup. cbn [mbind option_bind].
  rewrite !CONJUNCTION_TABLE_lookup.
  eexists. split; [reflexivity|]. f_equal. by_table.
Qed.

(** X4. In [CONJUNCTION_TABLE], True is the identity, False is absorbing and
    every value is idempotent, on either side. *)
Theorem conjunction_unit_zero_idempotent (v : TruthValue) :
  CONJUNCTION_TABLE !! (T, v) = Some v
  ∧ CONJUNCTION_TABLE !! (v, T) = Some v
  ∧ CONJUNCTION_TABLE !! (F, v) = Some F
  ∧ CONJUNCTION_TABLE !! (v, F) = Some F
  ∧ CONJUNCTION_TABLE !! (v, v) = Some v.
Proof. rewrite !CONJUNCTION_TABLE_lookup. destruct v; repeat split. Qed.

(** X5. Negation commutes with the join: negating a join is joining the
    negations. *)
Theorem negation_join (v1 v2 : TruthValue) :
  NEGATION_TABLE !! join_info_lattice v1 v2
  = (n1 ← NEGATION_TABLE !! v1; n2 ← NEGATION_TABLE !! v2;
     Some (join_info_lattice n1 n2))
  ∧ is_Some (NEGATION_TABLE !! join_info_lattice v1 v2).
Proof. rewrite !NEGATION_TABLE_lookup. split; [|eauto]. by_table. Qed.

(** X6. Conjunction distributes over the join in its first argument. *)
Theorem conjunction_join_distr (v1 v2 x : TruthValue) :
  CONJUNCTION_TABLE !! (join_info_lattice v1 v2, x)
  = (c1 ← CONJUNCTION_TABLE !! (v1, x); c2 ← CONJUNCTION_TABLE !! (v2, x);
     Some (join_info_lattice c1 c2))
  ∧ is_Some (CONJUNCTION_TABLE !! (join_info_lattice v1 v2, x)).
Proof. rewrite !CONJUNCTION_TABLE_lookup. split; [|eauto]. by_table. Qed.

(** X7. [join_info_lattice] is the least upper bound its docstring
    announces: a value lies above the join exactly when it lies above both
    arguments. *)
Theorem join_is_least_upper_bound (v1 v2 u : TruthValue) :
  join_info_lattice v1 v2 ⊑ u ↔ v1 ⊑ u ∧ v2 ⊑ u.
Proof.
  split.
  - intros Hle. split; (etrans; [|exact Hle]);
      [apply join_upper_l|apply join_upper_r].
  - intros [H1 H2]. by apply join_least.
Qed.

(** X8. The join decides the information order: [v1] lies below [v2]
    exactly when joining [v1] into [v2] leaves [v2] unchanged. *)
Theorem join_absorbs_iff_le (v1 v2 : TruthValue) :
  v1 ⊑ v2 ↔ join_info_lattice v1 v2 = v2.
Proof.
  split.
  - unfold sqsubseteq, info_le. by_table.
  - intros <-. apply join_upper_l.
Qed.

(** X9. The result of the loop does not depend on the iteration bound once
    it allows one iteration: from every start value it is the value of a
    single update, Neither from Neither and Both from every other start;
    True and False are never returned. *)
Theorem solve_loop_any_bound (rest : nat) (v : TruthValue) :
  solve_loop (S rest) v = liar_update v
  ∧ liar_update v = Some (if decide (v = N) then N else B).
Proof. destruct v, rest; split; reflexivity. Qed.

(** X10. With at least one iteration the loop returns the least fixed point
    of the Liar update above its start value: the result is stable, lies
    above the start, and lies below every stable value above the start. *)
Theorem solve_loop_least_fixed_point (rest : nat) (v u : TruthValue) :
  v ⊑ u → liar_update u = Some u →
  ∃ r, solve_loop (S rest) v = Some r
       ∧ liar_update r = Some r
       ∧ v ⊑ r
       ∧ r ⊑ u.
Proof.
  intros Hle Hfix.
  exists (if decide (v = N) then N else B).
  split; [by destruct v, rest|].
  revert Hle Hfix. unfold sqsubseteq, info_le.
  destruct v, u; intros Hle Hfix; try discriminate; repeat split.
Qed.

Lemma solve_loop_least_fixed_point_witness :
  T ⊑ B ∧ liar_update B = Some B
  ∧ ∃ r, solve_loop max_iterations T = Some r
         ∧ liar_update r = Some r ∧ T ⊑ r ∧ r ⊑ B.
Proof.
  split; [reflexivity|]. split; [reflexivity|].
  apply (solve_loop_least_fixed_point 4 T B); reflexivity.
Defined.

(** X11. One pass of the loop body is monotone for the information order:
    a larger previous value gives a larger new value. *)
Theorem liar_update_monotone (v1 v2 : TruthValue) :
  v1 ⊑ v2 → lookup_le (liar_update v1) (liar_update v2).
Proof.
  intros Hle. unfold lookup_le, liar_update.
  rewrite !NEGATION_TABLE_lookup. cbn [mbind option_bind].
  eexists _, _. split; [reflexivity|]. split; [reflexivity|].
  revert Hle. unfold sqsubseteq, info_le. by_table.
Qed.

Lemma liar_update_monotone_witness :
  N ⊑ T ∧ lookup_le (liar_update N) (liar_update T).
Proof. split; [reflexivity|apply (liar_update_monotone N T); reflexivity]. Defined.

(** X12. Both is the only truth value whose confidence interval is not a
    single point: its width is 1, the width of every other interval is 0. *)
Theorem confidence_width (v : TruthValue) :
  (i_max (C v) - i_min (C v) == if decide (v = B) then 1 else 0)%Q.
Proof. destruct v; reflexivity. Qed.

